(** * EventHub.h: the bit arrays, constants and plain records of the event hub

    A shallow embedding of the parts of
    [services/inputflinger/reader/include/EventHub.h] that carry code:
    [RawAbsoluteAxisInfo::clear], the [InputDeviceClass] enumeration, the
    synthetic event type codes of [EventHubInterface], the
    [NO_BUILT_IN_KEYBOARD] sentinel of [EventHub], and the [BitArray<BITS>]
    template ([test], [any], [loadFromBuffer]).

    Machine integers are mathematical integers with their wrap-around written
    out.  Array accesses of [BitArray] are recorded in a trace, and an access
    past the end of the backing array yields no result. *)

From stdpp Require Import base list sorting.
From Stdlib Require Import ZArith Lia Bool.

Local Open Scope Z_scope.

(** ** Machine integers *)

(** [size_t] on the 64-bit targets of the platform: unsigned, wraps at 2^64. *)
Definition SIZE_MAX_P1 : Z := 2 ^ 64.
Definition size_t (z : Z) : Z := z mod SIZE_MAX_P1.
Definition is_size_t (z : Z) : Prop := 0 <= z < SIZE_MAX_P1.

(** [std::uint32_t]: unsigned, wraps at 2^32. *)
Definition to_u32 (z : Z) : Z := z mod 2 ^ 32.
Definition is_u32 (z : Z) : Prop := 0 <= z < 2 ^ 32.

(** [int]: 32 bits, two's complement.  The literal [1] in [1 << nBits] is an
    [int], so the masks of [any] are computed in this type and only then
    converted to [Element].  Where the result of a shift or a subtraction
    leaves the range of [int] (a mask of 31 bits is [(1 << 31) - 1]), it is
    taken modulo 2^32, as the compilers of the platform compute it. *)
Definition int_wrap (z : Z) : Z := (z + 2 ^ 31) mod 2 ^ 32 - 2 ^ 31.
Definition int_shl (a n : Z) : Z := int_wrap (Z.shiftl a n).
Definition int_sub (a b : Z) : Z := int_wrap (a - b).

(** [int32_t] range, the type of the fields of [RawEvent] and of device ids. *)
Definition is_int32 (z : Z) : Prop := - 2 ^ 31 <= z < 2 ^ 31.

(** ** struct RawAbsoluteAxisInfo *)

Module RawAbsoluteAxisInfo.

Record t : Type := Build {
  valid : bool;
  minValue : Z;
  maxValue : Z;
  flat : Z;
  fuzz : Z;
  resolution : Z
}.

(** [inline void clear()]: six assignments, one per field, in the order of
    the source. *)
Definition set_valid (v : bool) (a : t) : t :=
  Build v (minValue a) (maxValue a) (flat a) (fuzz a) (resolution a).
Definition set_minValue (z : Z) (a : t) : t :=
  Build (valid a) z (maxValue a) (flat a) (fuzz a) (resolution a).
Definition set_maxValue (z : Z) (a : t) : t :=
  Build (valid a) (minValue a) z (flat a) (fuzz a) (resolution a).
Definition set_flat (z : Z) (a : t) : t :=
  Build (valid a) (minValue a) (maxValue a) z (fuzz a) (resolution a).
Definition set_fuzz (z : Z) (a : t) : t :=
  Build (valid a) (minValue a) (maxValue a) (flat a) z (resolution a).
Definition set_resolution (z : Z) (a : t) : t :=
  Build (valid a) (minValue a) (maxValue a) (flat a) (fuzz a) z.

Definition clear (a : t) : t :=
  set_resolution 0
    (set_fuzz 0 (set_flat 0 (set_maxValue 0 (set_minValue 0 (set_valid false a))))).

End RawAbsoluteAxisInfo.

(** ** enum class InputDeviceClass : uint32_t *)

Inductive InputDeviceClass : Type :=
  | KEYBOARD | ALPHAKEY | TOUCH | CURSOR | TOUCH_MT | DPAD | GAMEPAD | SWITCH
  | JOYSTICK | VIBRATOR | MIC | EXTERNAL_STYLUS | ROTARY_ENCODER
  | VIRTUAL | EXTERNAL.

(** The enumerator values, as written in the header. *)
Definition class_value (c : InputDeviceClass) : Z :=
  match c with
  | KEYBOARD => 0x00000001
  | ALPHAKEY => 0x00000002
  | TOUCH => 0x00000004
  | CURSOR => 0x00000008
  | TOUCH_MT => 0x00000010
  | DPAD => 0x00000020
  | GAMEPAD => 0x00000040
  | SWITCH => 0x00000080
  | JOYSTICK => 0x00000100
  | VIBRATOR => 0x00000200
  | MIC => 0x00000400
  | EXTERNAL_STYLUS => 0x00000800
  | ROTARY_ENCODER => 0x00001000
  | VIRTUAL => 0x40000000
  | EXTERNAL => 0x80000000
  end.

(** The position of the single bit of each enumerator. *)
Definition class_bit (c : InputDeviceClass) : Z :=
  match c with
  | KEYBOARD => 0 | ALPHAKEY => 1 | TOUCH => 2 | CURSOR => 3 | TOUCH_MT => 4
  | DPAD => 5 | GAMEPAD => 6 | SWITCH => 7 | JOYSTICK => 8 | VIBRATOR => 9
  | MIC => 10 | EXTERNAL_STYLUS => 11 | ROTARY_ENCODER => 12
  | VIRTUAL => 30 | EXTERNAL => 31
  end.

(** Modelled from the spec: [Flags<InputDeviceClass>] is declared in
    [input/Flags.h], which is not among the sources.  The spec calls the
    classes "additive capabilities": a flags word is a [uint32_t], a class is
    added with bitwise or of its enumerator and is present when all bits of its
    enumerator are set in the word. *)
Module Flags.
Definition empty : Z := 0.
Definition add (f : Z) (c : InputDeviceClass) : Z := Z.lor f (class_value c).
Definition test (f : Z) (c : InputDeviceClass) : bool :=
  Z.land f (class_value c) =? class_value c.
Definition of_list (cs : list InputDeviceClass) : Z := fold_left add cs empty.
End Flags.

(** ** class EventHubInterface: synthetic raw event type codes *)

Module EventHubInterface.
Definition DEVICE_ADDED : Z := 0x10000000.
Definition DEVICE_REMOVED : Z := 0x20000000.
Definition FINISHED_DEVICE_SCAN : Z := 0x30000000.
Definition FIRST_SYNTHETIC_EVENT : Z := DEVICE_ADDED.
End EventHubInterface.

(** The kernel's [struct input_event] ([linux/input.h], included by the
    header) carries its event type in a [__u16] field, and the largest type
    code it defines is [EV_MAX = 0x1f]. *)
Definition EV_MAX : Z := 0x1f.
Definition is_evdev_type (ty : Z) : Prop := 0 <= ty < 2 ^ 16.

(** ** class EventHub: device id constants *)

Module EventHub.
Definition NO_BUILT_IN_KEYBOARD : Z := -2.

(** Modelled from the spec: the id of the virtual keyboard is declared in
    [input/InputDevice.h], which is not among the sources; the comment above
    [NO_BUILT_IN_KEYBOARD] and the spec's data model both give it as -1. *)
Definition VIRTUAL_KEYBOARD_ID : Z := -1.

(** Modelled from the spec: the ids of real devices are assigned in
    [EventHub.cpp], which is not among the sources; the spec's data model
    gives them as "stable small integer, >= 1 for real devices". *)
Definition is_real_device_id (id : Z) : Prop := 1 <= id /\ is_int32 id.
End EventHub.

(** ** Effects of the bit array code *)

(** What a call does besides returning: it dereferences words of [mData] and
    it may log an error with [ALOGE]. *)
Inductive event : Type :=
  | Load (idx : Z)
  | LogE (startIndex endIndex bits : Z).

(** A computation yields the events it performed, in order, and its result;
    [None] stands for an access outside the backing array, after which the
    C++ program has no defined behaviour. *)
Definition M (A : Type) : Type := (list event * option A)%type.

Definition ret {A} (a : A) : M A := ([], Some a).

Definition bind {A B} (m : M A) (f : A -> M B) : M B :=
  match m with
  | (t, None) => (t, None)
  | (t, Some a) => let '(t', r) := f a in (t ++ t', r)
  end.

Notation "'do' x <- m ;; k" := (bind m (fun x => k))
  (at level 10, x name, m at level 99, k at level 200).
Notation "'do' ' pat <- m ;; k" := (bind m (fun x => match x with pat => k end))
  (at level 10, pat pattern, m at level 99, k at level 200).

Definition trace {A} (m : M A) : list event := fst m.
Definition value {A} (m : M A) : option A := snd m.

(** [mData[i]] on a [std::array]: no bounds check in the source. *)
Definition load (mData : list Z) (i : Z) : M Z :=
  ([Load i], if i <? 0 then None else mData !! Z.to_nat i).

Definition logE (startIndex endIndex bits : Z) : M unit :=
  ([LogE startIndex endIndex bits], Some tt).

(** The word indices a trace dereferences. *)
Definition loads (t : list event) : list Z :=
  omap (fun e => match e with Load i => Some i | LogE _ _ _ => None end) t.

Definition logged (t : list event) : bool :=
  existsb (fun e => match e with LogE _ _ _ => true | Load _ => false end) t.

(** ** std::bitset<32>, held as the 32-bit word of its bits *)

Module bitset.
Definition of_ull (v : Z) : Z := v mod 2 ^ 32.
Definition test (w pos : Z) : bool := Z.testbit w pos.
Definition any (w : Z) : bool := negb (w =? 0).
Definition to_ulong (w : Z) : Z := w.
End bitset.

(** ** template <std::size_t BITS> class BitArray *)

Module BitArray.

(** [sizeof(Element) * CHAR_BIT] *)
Definition WIDTH : Z := 32.

(** [(BITS + WIDTH - 1) / WIDTH] *)
Definition COUNT (BITS : Z) : Z := size_t (size_t (BITS + WIDTH) - 1) / WIDTH.

(** The state of an object: [mData] has [COUNT] elements, each a
    [std::bitset<32>]. *)
Definition wf (BITS : Z) (mData : list Z) : Prop :=
  Z.of_nat (length mData) = COUNT BITS /\ Forall is_u32 mData.

(** A width whose word array can exist: the computation of [COUNT] and the
    [BITS + 1] of the range check do not wrap. *)
Definition valid_width (BITS : Z) : Prop := 0 <= BITS /\ BITS + WIDTH < SIZE_MAX_P1.

(** [inline bool test(size_t bit) const] *)
Definition test (BITS : Z) (mData : list Z) (bit : Z) : M bool :=
  if bit <? BITS then
    do w <- load mData (bit / WIDTH) ;;
    ret (bitset.test w (bit mod WIDTH))
  else ret false.

(** [inline size_t bytes()], with [CHAR_BIT = 8] *)
Definition bytes (BITS : Z) : Z := size_t (size_t (BITS + 8) - 1) / 8.

(** The loop [for (; se < ee; se++) if (mData[se].any()) return true;].
    It yields whether it returned [true] and the final [se]; [n] bounds the
    number of iterations and [ee - se] of them always suffice. *)
Fixpoint scan_whole (mData : list Z) (n : nat) (se ee : Z) : M (bool * Z) :=
  match n with
  | O => ret (false, se)
  | S n' =>
      if se <? ee then
        do w <- load mData se ;;
        if bitset.any w then ret (true, se)
        else scan_whole mData n' (size_t (se + 1)) ee
      else ret (false, se)
  end.

(** [bool any(size_t startIndex, size_t endIndex)] *)
Definition any (BITS : Z) (mData : list Z) (startIndex endIndex : Z) : M bool :=
  if (startIndex >=? endIndex) || (startIndex >? BITS)
     || (endIndex >? size_t (BITS + 1))
  then
    do _ <- logE startIndex endIndex BITS ;;
    ret false
  else
    let se := startIndex / WIDTH in
    let ee := endIndex / WIDTH in
    let si := startIndex mod WIDTH in
    let ei := endIndex mod WIDTH in
    do '(found, se) <-
      (if si >? 0 then
         let nBits := if se =? ee then size_t (ei - si) else size_t (WIDTH - si) in
         let mask := to_u32 (int_shl (int_sub (int_shl 1 nBits) 1) si) in
         do w <- load mData se ;;
         ret (negb (Z.land (bitset.to_ulong w) mask =? 0), size_t (se + 1))
       else ret (false, se)) ;;
    if found : bool then ret true
    else
      do '(found, se) <- scan_whole mData (Z.to_nat (ee - se)) se ee ;;
      if found : bool then ret true
      else if (ei >? 0) && (se <=? ee) then
        let mask := to_u32 (int_sub (int_shl 1 ei) 1) in
        do w <- load mData se ;;
        ret (negb (Z.land (bitset.to_ulong w) mask =? 0))
      else ret false.

(** [void loadFromBuffer(const Buffer& buffer)]: the loop over
    [i = 0 .. COUNT - 1]; [None] when [buffer[i]] or [mData[i]] does not
    exist. *)
Fixpoint load_loop (BITS : Z) (buffer : list Z) (n : nat) (i : Z) (mData : list Z)
  : option (list Z) :=
  match n with
  | O => Some mData
  | S n' =>
      if i <? COUNT BITS then
        match buffer !! Z.to_nat i with
        | Some v =>
            if i <? Z.of_nat (length mData) then
              load_loop BITS buffer n' (size_t (i + 1))
                (<[Z.to_nat i := bitset.of_ull v]> mData)
            else None
        | None => None
        end
      else Some mData
  end.

Definition loadFromBuffer (BITS : Z) (mData buffer : list Z) : option (list Z) :=
  load_loop BITS buffer (Z.to_nat (COUNT BITS)) 0 mData.

(** The bit at index [i] of a sequence of 32-bit words, as the kernel lays
    capability bits out in the ioctl buffer. *)
Definition buffer_bit (buffer : list Z) (i : Z) : bool :=
  match buffer !! Z.to_nat (i / WIDTH) with
  | Some v => Z.testbit v (i mod WIDTH)
  | None => false
  end.

(** The array of a newly constructed object.  The class declares no
    constructor, so [mData] is built by the default constructor of each
    [std::bitset<32>], which clears all bits. *)
Definition default_init (BITS : Z) : list Z := replicate (Z.to_nat (COUNT BITS)) 0.

End BitArray.

(** ** Vocabulary of the statements about [BitArray] *)

(** [m] runs to completion with result [a] satisfying [P], logs no error, and
    dereferences only word indices in [lo .. hi - 1]. *)
Definition ok_run {A} (lo hi : Z) (m : M A) (P : A -> Prop) : Prop :=
  exists t a, m = (t, Some a) /\ logged t = false /\
              Forall (fun i => lo <= i < hi) (loads t) /\ P a.

(** [b] tells whether some bit with index in [lo .. hi - 1] is set in the
    words [mData]. *)
Definition found_spec (mData : list Z) (lo hi : Z) (b : bool) : Prop :=
  (b = true /\ exists i, lo <= i < hi /\ BitArray.buffer_bit mData i = true) \/
  (b = false /\ forall i, lo <= i < hi -> BitArray.buffer_bit mData i = false).

(** The state after the first, unaligned word: either a set bit was found in
    the range, or the bits checked so far are clear and [snd r] is the word
    index to go on with. *)
Definition after_first (mData : list Z) (s e ee : Z) (r : bool * Z) : Prop :=
  (fst r = true /\ found_spec mData s e true) \/
  (fst r = false /\ 0 <= snd r <= ee + 1 /\ s <= 32 * snd r /\
   forall i, s <= i < Z.min e (32 * snd r) -> BitArray.buffer_bit mData i = false).

(** The ranges the check accepts and the array has words for. *)
Definition in_array (BITS startIndex endIndex : Z) : Prop :=
  0 <= startIndex /\ startIndex < endIndex /\ startIndex <= BITS /\
  endIndex <= BITS + 1 /\ (endIndex <= BITS \/ BITS mod 32 <> 0).


(** * Properties *)

(** ** RawAbsoluteAxisInfo *)

(** C6: after [clear()] on any [RawAbsoluteAxisInfo], [valid] is false and
    [minValue], [maxValue], [flat], [fuzz] and [resolution] are all 0. *)
Theorem RawAbsoluteAxisInfo_clear_zeroes (a : RawAbsoluteAxisInfo.t) :
  let a' := RawAbsoluteAxisInfo.clear a in
  RawAbsoluteAxisInfo.valid a' = false /\
  RawAbsoluteAxisInfo.minValue a' = 0 /\
  RawAbsoluteAxisInfo.maxValue a' = 0 /\
  RawAbsoluteAxisInfo.flat a' = 0 /\
  RawAbsoluteAxisInfo.fuzz a' = 0 /\
  RawAbsoluteAxisInfo.resolution a' = 0.
Proof. destruct a; cbn. repeat split. Qed.

(** [clear] does not depend on what the record held before. *)
Lemma RawAbsoluteAxisInfo_clear_const (a b : RawAbsoluteAxisInfo.t) :
  RawAbsoluteAxisInfo.clear a = RawAbsoluteAxisInfo.clear b.
Proof. reflexivity. Qed.

(** ** Synthetic event type codes *)

(** C4: [DEVICE_ADDED], [DEVICE_REMOVED] and [FINISHED_DEVICE_SCAN] are
    pairwise distinct values of an [int32_t], and each is strictly greater
    than every evdev event type code (any value of the kernel's 16-bit type
    field, in particular [EV_MAX]); [FIRST_SYNTHETIC_EVENT] is the least of
    the three. *)
Theorem synthetic_event_types_apart (ty : Z) :
  is_evdev_type ty ->
  (EventHubInterface.DEVICE_ADDED <> EventHubInterface.DEVICE_REMOVED /\
   EventHubInterface.DEVICE_ADDED <> EventHubInterface.FINISHED_DEVICE_SCAN /\
   EventHubInterface.DEVICE_REMOVED <> EventHubInterface.FINISHED_DEVICE_SCAN) /\
  (is_int32 EventHubInterface.DEVICE_ADDED /\
   is_int32 EventHubInterface.DEVICE_REMOVED /\
   is_int32 EventHubInterface.FINISHED_DEVICE_SCAN) /\
  (ty < EventHubInterface.DEVICE_ADDED /\
   ty < EventHubInterface.DEVICE_REMOVED /\
   ty < EventHubInterface.FINISHED_DEVICE_SCAN) /\
  (is_evdev_type EV_MAX /\
   ty < EventHubInterface.FIRST_SYNTHETIC_EVENT /\
   EventHubInterface.FIRST_SYNTHETIC_EVENT <= EventHubInterface.DEVICE_ADDED /\
   EventHubInterface.FIRST_SYNTHETIC_EVENT <= EventHubInterface.DEVICE_REMOVED /\
   EventHubInterface.FIRST_SYNTHETIC_EVENT <= EventHubInterface.FINISHED_DEVICE_SCAN).
Proof.
  unfold is_evdev_type, is_int32, EV_MAX, EventHubInterface.FIRST_SYNTHETIC_EVENT,
    EventHubInterface.DEVICE_ADDED, EventHubInterface.DEVICE_REMOVED,
    EventHubInterface.FINISHED_DEVICE_SCAN.
  intros Hty. change (2 ^ 16) with 65536 in Hty.
  change (2 ^ 16) with 65536. change (2 ^ 31) with 2147483648.
  lia.
Qed.

Lemma synthetic_event_types_apart_witness :
  is_evdev_type 0x1f /\ 0x1f < EventHubInterface.DEVICE_ADDED.
Proof.
  assert (H : is_evdev_type 0x1f) by (unfold is_evdev_type; split; [lia | reflexivity]).
  split; [exact H |].
  exact (proj1 (proj1 (proj2 (proj2 (synthetic_event_types_apart 0x1f H))))).
Defined.

(** ** Device id constants *)

(** C7: [NO_BUILT_IN_KEYBOARD] is -2; it differs from the virtual keyboard
    id -1 and from every real device id (each at least 1). *)
Theorem NO_BUILT_IN_KEYBOARD_no_collision (id : Z) :
  EventHub.is_real_device_id id ->
  EventHub.NO_BUILT_IN_KEYBOARD = -2 /\
  EventHub.NO_BUILT_IN_KEYBOARD <> EventHub.VIRTUAL_KEYBOARD_ID /\
  EventHub.NO_BUILT_IN_KEYBOARD <> id /\
  is_int32 EventHub.NO_BUILT_IN_KEYBOARD.
Proof.
  unfold EventHub.is_real_device_id, EventHub.NO_BUILT_IN_KEYBOARD,
    EventHub.VIRTUAL_KEYBOARD_ID, is_int32.
  change (2 ^ 31) with 2147483648. lia.
Qed.

Lemma NO_BUILT_IN_KEYBOARD_no_collision_witness :
  EventHub.is_real_device_id 1 /\ EventHub.NO_BUILT_IN_KEYBOARD <> 1.
Proof.
  assert (H : EventHub.is_real_device_id 1).
  { unfold EventHub.is_real_device_id, is_int32. change (2 ^ 31) with 2147483648. lia. }
  split; [exact H |].
  exact (proj1 (proj2 (proj2 (NO_BUILT_IN_KEYBOARD_no_collision 1 H)))).
Defined.

(** ** InputDeviceClass and flags words *)

Lemma class_value_bit (c : InputDeviceClass) :
  0 <= class_bit c < 32 /\ class_value c = 2 ^ class_bit c.
Proof. destruct c; cbn; split; (lia || reflexivity). Qed.

Lemma class_bit_inj (c d : InputDeviceClass) : class_bit c = class_bit d -> c = d.
Proof. destruct c, d; cbn; intros H; (reflexivity || discriminate H). Qed.

(** Testing a class in a flags word reads exactly the bit of that class. *)
Lemma Flags_test_testbit (f : Z) (c : InputDeviceClass) :
  Flags.test f c = Z.testbit f (class_bit c).
Proof.
  unfold Flags.test.
  destruct (class_value_bit c) as [Hk ->].
  set (k := class_bit c) in *.
  destruct (Z.testbit f k) eqn:Hb.
  - apply Z.eqb_eq. apply Z.bits_inj'. intros n Hn.
    rewrite Z.land_spec, Z.pow2_bits_eqb by lia.
    destruct (Z.eqb_spec k n) as [<- | Hne].
    + now rewrite Hb.
    + apply andb_false_r.
  - apply Z.eqb_neq. intros Heq.
    assert (Hk' : Z.testbit (Z.land f (2 ^ k)) k = Z.testbit (2 ^ k) k) by now rewrite Heq.
    rewrite Z.land_spec, Hb, Z.pow2_bits_true in Hk' by lia.
    discriminate Hk'.
Qed.

Lemma Flags_add_testbit (f : Z) (c : InputDeviceClass) (n : Z) :
  0 <= n ->
  Z.testbit (Flags.add f c) n = Z.testbit f n || (class_bit c =? n).
Proof.
  intros Hn. unfold Flags.add.
  destruct (class_value_bit c) as [Hk ->].
  now rewrite Z.lor_spec, Z.pow2_bits_eqb by lia.
Qed.

Lemma Flags_fold_testbit (cs : list InputDeviceClass) (f n : Z) :
  0 <= n ->
  Z.testbit (fold_left Flags.add cs f) n
  = Z.testbit f n || existsb (fun c => class_bit c =? n) cs.
Proof.
  intros Hn. revert f.
  induction cs as [| c cs IH]; intros f; cbn.
  - now rewrite orb_false_r.
  - rewrite IH, Flags_add_testbit by exact Hn. now rewrite orb_assoc.
Qed.

(** A class is present in the word of a list exactly when it is in the list. *)
Lemma Flags_of_list_test (cs : list InputDeviceClass) (c : InputDeviceClass) :
  Flags.test (Flags.of_list cs) c = true <-> In c cs.
Proof.
  rewrite Flags_test_testbit. unfold Flags.of_list, Flags.empty.
  destruct (class_value_bit c) as [Hk _].
  rewrite Flags_fold_testbit, Z.bits_0 by lia. cbn.
  rewrite existsb_exists. split.
  - intros (d & Hd & Heq). apply Z.eqb_eq in Heq.
    now rewrite (class_bit_inj d c Heq) in Hd.
  - intros Hin. exists c. split; [exact Hin | apply Z.eqb_refl].
Qed.

(** C10: every enumerator of [InputDeviceClass] is a single bit of a 32-bit
    word and no two enumerators share their bit; hence adding a class to a
    flags word sets that class and changes the test of no other class, and
    two lists of classes have the same flags word exactly when they have the
    same members. *)
Theorem InputDeviceClass_single_bits :
  (forall c, 0 <= class_bit c < 32 /\ class_value c = 2 ^ class_bit c) /\
  (forall c d, class_value c = class_value d -> c = d) /\
  (forall c d, c <> d -> Z.land (class_value c) (class_value d) = 0) /\
  (forall f c, Flags.test (Flags.add f c) c = true) /\
  (forall f c d, c <> d -> Flags.test (Flags.add f c) d = Flags.test f d) /\
  (forall cs ds,
      Flags.of_list cs = Flags.of_list ds <-> (forall c, In c cs <-> In c ds)).
Proof.
  split; [exact class_value_bit |].
  split; [intros c d; destruct c, d; cbn; intros H; (reflexivity || discriminate H) |].
  split; [intros c d; destruct c, d; cbn; intros H; (reflexivity || now elim H) |].
  split.
  { intros f c. rewrite Flags_test_testbit.
    destruct (class_value_bit c) as [Hk _].
    rewrite Flags_add_testbit, Z.eqb_refl by lia. apply orb_true_r. }
  split.
  { intros f c d Hne. rewrite !Flags_test_testbit.
    destruct (class_value_bit d) as [Hk _].
    rewrite Flags_add_testbit by lia.
    destruct (Z.eqb_spec (class_bit c) (class_bit d)) as [Heq | _].
    - elim Hne. now apply class_bit_inj.
    - apply orb_false_r. }
  intros cs ds. split.
  - intros Heq c. rewrite <- !Flags_of_list_test. now rewrite Heq.
  - intros Hmem. apply Z.bits_inj'. intros n Hn.
    unfold Flags.of_list. rewrite !Flags_fold_testbit by exact Hn. f_equal.
    apply eq_true_iff_eq. rewrite !existsb_exists.
    split; intros (c & Hc & Hb); exists c; (split; [now apply Hmem | exact Hb]).
Qed.

(** ** Machine arithmetic of the masks *)

Lemma size_t_small (z : Z) : is_size_t z -> size_t z = z.
Proof. intros H. apply Z.mod_small. exact H. Qed.

Lemma to_u32_int_wrap (z : Z) : to_u32 (int_wrap z) = to_u32 z.
Proof.
  unfold to_u32, int_wrap.
  change (2 ^ 32) with 4294967296. change (2 ^ 31) with 2147483648.
  Z.div_mod_to_equations. lia.
Qed.

(** Computed in [int] and converted to [Element], [((1 << n) - 1) << s] is the
    word with bits [s .. s + n - 1] set, as long as these fit in 32 bits. *)
Lemma first_mask (n s : Z) :
  0 <= n -> 0 <= s -> n + s <= 32 ->
  to_u32 (int_shl (int_sub (int_shl 1 n) 1) s) = Z.shiftl (Z.ones n) s.
Proof.
  intros Hn Hs Hns. unfold int_shl, int_sub.
  rewrite to_u32_int_wrap. unfold to_u32.
  rewrite !Z.shiftl_mul_pow2 by lia. rewrite Z.mul_1_l.
  rewrite <- Z.mul_mod_idemp_l by lia.
  fold (to_u32 (int_wrap (int_wrap (2 ^ n) - 1))). rewrite to_u32_int_wrap. unfold to_u32.
  rewrite <- Zminus_mod_idemp_l.
  fold (to_u32 (int_wrap (2 ^ n))). rewrite to_u32_int_wrap. unfold to_u32.
  rewrite Zminus_mod_idemp_l, Z.mul_mod_idemp_l by lia.
  rewrite Z.ones_equiv, <- Z.sub_1_r.
  apply Z.mod_small.
  assert (H0 : 0 < 2 ^ n) by (apply Z.pow_pos_nonneg; lia).
  assert (H1 : 0 < 2 ^ s) by (apply Z.pow_pos_nonneg; lia).
  assert (H2 : 2 ^ n * 2 ^ s <= 2 ^ 32).
  { rewrite <- Z.pow_add_r by lia. apply Z.pow_le_mono_r; lia. }
  nia.
Qed.

Lemma int_shl_0 (x : Z) : int_shl x 0 = int_wrap x.
Proof. unfold int_shl. now rewrite Z.shiftl_0_r. Qed.

Lemma last_mask (e : Z) :
  0 <= e <= 32 -> to_u32 (int_sub (int_shl 1 e) 1) = Z.ones e.
Proof.
  intros He.
  pose proof (first_mask e 0 ltac:(lia) ltac:(lia) ltac:(lia)) as H.
  rewrite Z.shiftl_0_r in H. rewrite <- H.
  rewrite int_shl_0, to_u32_int_wrap. reflexivity.
Qed.

(** ** Bits of a word inside a range *)

Lemma bits_in_range_dec (w a : Z) (n : nat) :
  (exists j, a <= j < a + Z.of_nat n /\ Z.testbit w j = true) \/
  (forall j, a <= j < a + Z.of_nat n -> Z.testbit w j = false).
Proof.
  induction n as [| n [(j & Hj & Hb) | Hall]].
  - right. intros j Hj. lia.
  - left. exists j. split; [lia | exact Hb].
  - destruct (Z.testbit w (a + Z.of_nat n)) eqn:Hb.
    + left. exists (a + Z.of_nat n). split; [lia | exact Hb].
    + right. intros j Hj.
      destruct (Z.eq_dec j (a + Z.of_nat n)) as [-> | Hne]; [exact Hb |].
      apply Hall. lia.
Qed.

Lemma range_mask_spec (a b j : Z) :
  0 <= a <= b -> 0 <= j ->
  Z.testbit (Z.shiftl (Z.ones (b - a)) a) j = (a <=? j) && (j <? b).
Proof.
  intros Hab Hj. rewrite Z.shiftl_spec by exact Hj.
  destruct (Z.leb_spec a j) as [Haj | Hja]; cbn.
  - destruct (Z.ltb_spec j b) as [Hjb | Hbj].
    + apply Z.ones_spec_low. lia.
    + apply Z.ones_spec_high. lia.
  - apply Z.testbit_neg_r. lia.
Qed.

(** The test [w & mask] of [any], for the mask of bits [a .. b - 1]: either
    it is non-zero and some bit of the range is set in [w], or it is zero and
    none is. *)
Lemma masked_word_cases (w a b : Z) :
  0 <= a <= b ->
  (negb (Z.land w (Z.shiftl (Z.ones (b - a)) a) =? 0) = true /\
   exists j, a <= j < b /\ Z.testbit w j = true) \/
  (negb (Z.land w (Z.shiftl (Z.ones (b - a)) a) =? 0) = false /\
   forall j, a <= j < b -> Z.testbit w j = false).
Proof.
  intros Hab.
  destruct (bits_in_range_dec w a (Z.to_nat (b - a))) as [(j & Hj & Hb) | Hall].
  - left. split; [| exists j; split; [lia | exact Hb]].
    apply negb_true_iff, Z.eqb_neq. intros H0.
    assert (Hbit : Z.testbit (Z.land w (Z.shiftl (Z.ones (b - a)) a)) j = false)
      by (rewrite H0; apply Z.bits_0).
    rewrite Z.land_spec, Hb, range_mask_spec in Hbit by lia.
    cbn in Hbit. apply andb_false_iff in Hbit.
    destruct Hbit as [H | H]; [apply Z.leb_gt in H | apply Z.ltb_ge in H]; lia.
  - right. split; [| intros j Hj; apply Hall; lia].
    apply negb_false_iff, Z.eqb_eq. apply Z.bits_inj'. intros j Hj.
    rewrite Z.land_spec, range_mask_spec, Z.bits_0 by lia.
    destruct (Z.leb_spec a j) as [Haj | _]; cbn; [| apply andb_false_r].
    destruct (Z.ltb_spec j b) as [Hjb | _]; cbn; [| apply andb_false_r].
    rewrite Hall by lia. reflexivity.
Qed.

(** A whole 32-bit word is non-zero exactly when one of its 32 bits is set. *)
Lemma whole_word_cases (w : Z) :
  is_u32 w ->
  (bitset.any w = true /\ exists j, 0 <= j < 32 /\ Z.testbit w j = true) \/
  (bitset.any w = false /\ forall j, 0 <= j < 32 -> Z.testbit w j = false).
Proof.
  intros Hw. unfold bitset.any.
  destruct (masked_word_cases w 0 32 ltac:(lia)) as [[Hn Hex] | [Hn Hall]];
    rewrite Z.shiftl_0_r, Z.sub_0_r, Z.land_ones, Z.mod_small in Hn
      by (try exact Hw; lia); [left | right]; split; assumption.
Qed.

(** ** Running computations *)

Lemma bind_ret_l {A B} (a : A) (f : A -> M B) : bind (ret a) f = f a.
Proof. unfold bind, ret. destruct (f a). reflexivity. Qed.

Lemma ok_ret {A} (lo hi : Z) (a : A) (P : A -> Prop) : P a -> ok_run lo hi (ret a) P.
Proof. intros H. exists [], a. repeat split; [constructor | exact H]. Qed.

Lemma loads_app (t t' : list event) : loads (t ++ t') = loads t ++ loads t'.
Proof. unfold loads. apply omap_app. Qed.

Lemma logged_app (t t' : list event) : logged (t ++ t') = logged t || logged t'.
Proof. unfold logged. apply existsb_app. Qed.

Lemma ok_bind {A B} (lo hi : Z) (m : M A) (f : A -> M B) (P : A -> Prop) (Q : B -> Prop) :
  ok_run lo hi m P ->
  (forall a, P a -> ok_run lo hi (f a) Q) ->
  ok_run lo hi (bind m f) Q.
Proof.
  intros (t & a & -> & Hlog & Hld & Ha) Hf.
  destruct (Hf a Ha) as (t' & b & Hfa & Hlog' & Hld' & Hb).
  exists (t ++ t'), b. cbn. rewrite Hfa.
  split; [reflexivity |].
  split; [rewrite logged_app, Hlog, Hlog'; reflexivity |].
  split; [rewrite loads_app; apply Forall_app; split; assumption | exact Hb].
Qed.

Lemma ok_weaken {A} (lo hi : Z) (m : M A) (P Q : A -> Prop) :
  ok_run lo hi m P -> (forall a, P a -> Q a) -> ok_run lo hi m Q.
Proof.
  intros (t & a & Hm & Hlog & Hld & Ha) HPQ.
  exists t, a. repeat split; auto.
Qed.

Lemma lookup_word (mData : list Z) (i : Z) :
  Forall is_u32 mData -> 0 <= i < Z.of_nat (length mData) ->
  exists w, mData !! Z.to_nat i = Some w /\ is_u32 w.
Proof.
  intros Hall Hi.
  destruct (lookup_lt_is_Some_2 mData (Z.to_nat i)) as [w Hw]; [lia |].
  exists w. split; [exact Hw |].
  rewrite Forall_lookup in Hall. exact (Hall _ _ Hw).
Qed.

Lemma ok_load (mData : list Z) (i w : Z) :
  0 <= i < Z.of_nat (length mData) ->
  mData !! Z.to_nat i = Some w ->
  ok_run 0 (Z.of_nat (length mData)) (load mData i) (fun x => x = w).
Proof.
  intros Hi Hw. exists [Load i], w. unfold load.
  destruct (Z.ltb_spec i 0) as [Hneg | _]; [lia |].
  rewrite Hw. repeat split. cbn. constructor; [lia | constructor].
Qed.

(** ** Bits of the word array *)

Lemma buffer_bit_word (mData : list Z) (k j w : Z) :
  0 <= k -> mData !! Z.to_nat k = Some w -> 0 <= j < 32 ->
  BitArray.buffer_bit mData (32 * k + j) = Z.testbit w j.
Proof.
  intros Hk Hw Hj. unfold BitArray.buffer_bit, BitArray.WIDTH.
  replace ((32 * k + j) / 32) with k by (Z.div_mod_to_equations; lia).
  replace ((32 * k + j) mod 32) with j by (Z.div_mod_to_equations; lia).
  now rewrite Hw.
Qed.

(** What a test of the bits [a .. b - 1] of word [k] says about the bit
    indices [32 k + a .. 32 k + b - 1] of the array. *)
Lemma word_range_found (mData : list Z) (k w a b : Z) (r : bool) :
  0 <= k -> mData !! Z.to_nat k = Some w -> 0 <= a -> b <= 32 ->
  (r = true /\ (exists j, a <= j < b /\ Z.testbit w j = true)) \/
  (r = false /\ (forall j, a <= j < b -> Z.testbit w j = false)) ->
  found_spec mData (32 * k + a) (32 * k + b) r.
Proof.
  intros Hk Hw Ha Hb [[-> (j & Hj & Hbit)] | [-> Hall]]; [left | right];
    (split; [reflexivity |]).
  - exists (32 * k + j). split; [lia |].
    rewrite (buffer_bit_word mData k j w) by (assumption || lia). exact Hbit.
  - intros i Hi. replace i with (32 * k + (i - 32 * k)) by lia.
    rewrite (buffer_bit_word mData k (i - 32 * k) w) by (assumption || lia).
    apply Hall. lia.
Qed.

(** ** The loop over whole words *)

Lemma scan_whole_spec (mData : list Z) (n : nat) (se ee : Z) :
  Forall is_u32 mData ->
  0 <= se -> ee <= Z.of_nat (length mData) -> ee < SIZE_MAX_P1 ->
  (Z.to_nat (ee - se) <= n)%nat ->
  ok_run 0 (Z.of_nat (length mData)) (BitArray.scan_whole mData n se ee)
    (fun r => found_spec mData (32 * se) (32 * ee) (fst r) /\
              (fst r = false -> snd r = Z.max se ee)).
Proof.
  intros Hall. revert se.
  induction n as [| n IH]; intros se Hse Hee Hmax Hfuel; cbn [BitArray.scan_whole].
  - apply ok_ret. cbn. split; [| lia].
    right. split; [reflexivity | intros i Hi; lia].
  - destruct (Z.ltb_spec se ee) as [Hlt | Hge].
    + destruct (lookup_word mData se Hall ltac:(lia)) as (w & Hw & Hu).
      apply ok_bind with (P := fun x => x = w); [apply ok_load; [lia | exact Hw] |].
      intros ? ->.
      pose proof (word_range_found mData se w 0 32) as Hword.
      destruct (whole_word_cases w Hu) as [[Hany Hex] | [Hany Hnone]]; rewrite Hany.
      * apply ok_ret. cbn. split; [| discriminate].
        specialize (Hword true Hse Hw ltac:(lia) ltac:(lia) (or_introl (conj eq_refl Hex))).
        destruct Hword as [[_ (i & Hi & Hb)] | [Hf _]]; [| discriminate Hf].
        left. split; [reflexivity |]. exists i. split; [lia | exact Hb].
      * rewrite size_t_small by (unfold is_size_t; lia).
        specialize (Hword false Hse Hw ltac:(lia) ltac:(lia) (or_intror (conj eq_refl Hnone))).
        destruct Hword as [[Hf _] | [_ Hzero]]; [discriminate Hf |].
        apply ok_weaken with (1 := IH (se + 1) ltac:(lia) Hee Hmax ltac:(lia)).
        intros [b se'] [Hfound Hse']. cbn in *. split; [| intros Hb; rewrite Hse' by exact Hb; lia].
        destruct Hfound as [[-> (i & Hi & Hb)] | [-> Hrest]]; [left | right];
          (split; [reflexivity |]).
        -- exists i. split; [lia | exact Hb].
        -- intros i Hi. destruct (Z.lt_ge_cases i (32 * se + 32)) as [Hlo | Hhi].
           ++ apply Hzero. lia.
           ++ apply Hrest. lia.
    + apply ok_ret. cbn. split; [| lia].
      right. split; [reflexivity | intros i Hi; lia].
Qed.

(** ** BitArray::any on an accepted range *)

Lemma any_accepted_spec (BITS : Z) (mData : list Z) (s e : Z) :
  BitArray.valid_width BITS -> Forall is_u32 mData ->
  0 <= s -> s < e -> s <= BITS -> e <= BITS + 1 ->
  e <= 32 * Z.of_nat (length mData) ->
  ok_run 0 (Z.of_nat (length mData)) (BitArray.any BITS mData s e) (found_spec mData s e).
Proof.
  intros [HB0 HB1] Hall Hs Hse HsB HeB Hlen.
  unfold BitArray.WIDTH, SIZE_MAX_P1 in HB1.
  assert (Hpow : 2 ^ 64 = 18446744073709551616) by reflexivity.
  assert (Hsz : forall z, 0 <= z <= BITS + 32 -> size_t z = z).
  { intros z Hz. apply size_t_small. unfold is_size_t, SIZE_MAX_P1. lia. }
  unfold BitArray.any.
  rewrite (Hsz (BITS + 1)), Z.geb_leb, !Z.gtb_ltb by lia.
  destruct (Z.leb_spec e s) as [? | _]; [lia |].
  destruct (Z.ltb_spec BITS s) as [? | _]; [lia |].
  destruct (Z.ltb_spec (BITS + 1) e) as [? | _]; [lia |].
  cbn [orb]. cbv zeta. unfold BitArray.WIDTH, bitset.to_ulong.
  set (se := s / 32). set (ee := e / 32). set (si := s mod 32). set (ei := e mod 32).
  assert (Hs_eq : s = 32 * se + si /\ 0 <= si < 32)
    by (subst se si; Z.div_mod_to_equations; lia).
  assert (He_eq : e = 32 * ee + ei /\ 0 <= ei < 32)
    by (subst ee ei; Z.div_mod_to_equations; lia).
  clearbody se ee si ei.
  destruct Hs_eq as [Hs_eq Hsi], He_eq as [He_eq Hei].
  assert (Hsee : 0 <= se <= ee) by nia.
  apply ok_bind with (P := after_first mData s e ee).
  - (* the first unaligned word *)
    destruct (Z.ltb_spec 0 si) as [Hsi0 | Hsi0].
    + destruct (lookup_word mData se Hall ltac:(lia)) as (w & Hw & Hu).
      apply ok_bind with (P := fun x => x = w); [apply ok_load; [lia | exact Hw] |].
      intros ? ->. rewrite (Hsz (se + 1)) by lia.
      apply ok_ret. unfold after_first. cbn [fst snd].
      destruct (Z.eqb_spec se ee) as [Heq | Hne].
      * rewrite (Hsz (ei - si)), first_mask by nia.
        pose proof (word_range_found mData se w si ei _ ltac:(lia) Hw ltac:(lia) ltac:(lia)
                      (masked_word_cases w si ei ltac:(nia))) as Hword.
        destruct Hword as [[-> (i & Hi & Hb)] | [-> Hzero]]; [left | right].
        -- split; [reflexivity |]. left. split; [reflexivity |].
           exists i. split; [lia | exact Hb].
        -- split; [reflexivity |]. split; [lia |]. split; [lia |].
           intros i Hi. apply Hzero. lia.
      * rewrite (Hsz (32 - si)), first_mask by lia.
        pose proof (word_range_found mData se w si 32 _ ltac:(lia) Hw ltac:(lia) ltac:(lia)
                      (masked_word_cases w si 32 ltac:(lia))) as Hword.
        destruct Hword as [[-> (i & Hi & Hb)] | [-> Hzero]]; [left | right].
        -- split; [reflexivity |]. left. split; [reflexivity |].
           exists i. split; [lia | exact Hb].
        -- split; [reflexivity |]. split; [lia |]. split; [lia |].
           intros i Hi. apply Hzero. lia.
    + apply ok_ret. right. cbn [fst snd].
      split; [reflexivity |]. split; [lia |]. split; [lia |].
      intros i Hi. lia.
  - (* the whole words and the last unaligned word *)
    intros [found se1] [[Hf Hfound] | (Hf & Hse1 & Hs1 & Hclear1)];
      cbn [fst snd] in *; subst found.
    { apply ok_ret. exact Hfound. }
    apply ok_bind with (1 := scan_whole_spec mData (Z.to_nat (ee - se1)) se1 ee Hall
                                ltac:(lia) ltac:(lia) ltac:(unfold SIZE_MAX_P1; lia)
                                ltac:(lia)).
    intros [found se2] [Hfound2 Hse2]. cbn [fst snd] in *.
    destruct Hfound2 as [[-> (i & Hi & Hb)] | [-> Hclear2]].
    { apply ok_ret. left. split; [reflexivity |]. exists i. split; [lia | exact Hb]. }
    specialize (Hse2 eq_refl). subst se2.
    destruct (Z.ltb_spec 0 ei) as [Hei0 | Hei0];
      [destruct (Z.leb_spec (Z.max se1 ee) ee) as [Hle | Hgt] |]; cbn [andb].
    + replace (Z.max se1 ee) with ee by lia.
      destruct (lookup_word mData ee Hall ltac:(lia)) as (w & Hw & Hu).
      apply ok_bind with (P := fun x => x = w); [apply ok_load; [lia | exact Hw] |].
      intros ? ->. apply ok_ret.
      rewrite last_mask by lia.
      pose proof (masked_word_cases w 0 ei ltac:(lia)) as Hmask.
      rewrite Z.shiftl_0_r, Z.sub_0_r in Hmask.
      pose proof (word_range_found mData ee w 0 ei _ ltac:(lia) Hw ltac:(lia) ltac:(lia)
                    Hmask) as Hword.
      destruct Hword as [[-> (i & Hi & Hb)] | [-> Hzero]]; [left | right];
        (split; [reflexivity |]).
      * exists i. split; [lia | exact Hb].
      * intros i Hi.
        destruct (Z.lt_ge_cases i (32 * se1)) as [H1 | H1]; [apply Hclear1; lia |].
        destruct (Z.lt_ge_cases i (32 * ee)) as [H2 | H2]; [apply Hclear2; lia |].
        apply Hzero. lia.
    + apply ok_ret. right. split; [reflexivity |].
      intros i Hi. apply Hclear1. lia.
    + apply ok_ret. right. split; [reflexivity |].
      intros i Hi.
      destruct (Z.lt_ge_cases i (32 * se1)) as [H1 | H1]; [apply Hclear1; lia |].
      apply Hclear2. lia.
Qed.

(** ** The backing array *)

Lemma COUNT_eq (BITS : Z) :
  BitArray.valid_width BITS -> BitArray.COUNT BITS = (BITS + 31) / 32.
Proof.
  intros [H0 H1]. unfold BitArray.COUNT, BitArray.WIDTH in *.
  unfold SIZE_MAX_P1 in H1. change (2 ^ 64) with 18446744073709551616 in H1.
  rewrite (size_t_small (BITS + 32)) by (unfold is_size_t, SIZE_MAX_P1; lia).
  rewrite size_t_small by (unfold is_size_t, SIZE_MAX_P1; lia).
  f_equal. lia.
Qed.

(** The array has a word for every bit index below [BITS]. *)
Lemma COUNT_covers (BITS : Z) :
  BitArray.valid_width BITS ->
  BITS <= 32 * BitArray.COUNT BITS < BITS + 32.
Proof.
  intros H. rewrite COUNT_eq by exact H. destruct H as [H0 _].
  Z.div_mod_to_equations. lia.
Qed.

(** ** BitArray::test *)

Lemma test_in_width (BITS : Z) (mData : list Z) (bit : Z) :
  BitArray.valid_width BITS -> Z.of_nat (length mData) = BitArray.COUNT BITS ->
  0 <= bit < BITS ->
  BitArray.test BITS mData bit
  = ([Load (bit / 32)], Some (BitArray.buffer_bit mData bit)).
Proof.
  intros HB Hlen Hbit. pose proof (COUNT_covers BITS HB) as Hc.
  unfold BitArray.test, BitArray.buffer_bit, BitArray.WIDTH, load, bitset.test.
  destruct (Z.ltb_spec bit BITS) as [_ | ?]; [| lia].
  destruct (Z.ltb_spec (bit / 32) 0) as [Hneg | _];
    [Z.div_mod_to_equations; lia |].
  destruct (lookup_lt_is_Some_2 mData (Z.to_nat (bit / 32))) as [w Hw].
  { Z.div_mod_to_equations. lia. }
  rewrite Hw. reflexivity.
Qed.

(** C3: [test(i)] returns false, without reading the array, for every index
    [i >= BITS]; and for every index at all it returns a result (it never
    reads outside the array). *)
Theorem test_beyond_width (BITS : Z) (mData : list Z) (bit : Z) :
  BitArray.valid_width BITS -> BitArray.wf BITS mData -> 0 <= bit ->
  (BITS <= bit -> BitArray.test BITS mData bit = ret false) /\
  (exists b, value (BitArray.test BITS mData bit) = Some b).
Proof.
  intros HB [Hlen _] Hbit.
  assert (Hout : BITS <= bit -> BitArray.test BITS mData bit = ret false).
  { intros Hge. unfold BitArray.test.
    destruct (Z.ltb_spec bit BITS) as [? | _]; [lia | reflexivity]. }
  split; [exact Hout |].
  destruct (Z.lt_ge_cases bit BITS) as [Hlt | Hge].
  - rewrite test_in_width by (assumption || lia). eexists. reflexivity.
  - rewrite Hout by exact Hge. exists false. reflexivity.
Qed.

Lemma test_beyond_width_witness :
  BitArray.test 63 [0; 2 ^ 31] 63 = ret false.
Proof.
  refine (proj1 (test_beyond_width 63 [0; 2 ^ 31] 63 _ _ _) _).
  - unfold BitArray.valid_width, BitArray.WIDTH, SIZE_MAX_P1. split; [lia | reflexivity].
  - split; [reflexivity |].
    repeat constructor; unfold is_u32; cbn; lia || discriminate.
  - lia.
  - lia.
Defined.

(** ** BitArray::any *)

(** C1: on a range [lo < hi <= BITS], [any(lo, hi)] returns a result, and it
    returns true if and only if [test(i)] is true for some [i] with
    [lo <= i < hi]. *)
Theorem any_iff_exists_test (BITS : Z) (mData : list Z) (lo hi : Z) :
  BitArray.valid_width BITS -> BitArray.wf BITS mData ->
  0 <= lo -> lo < hi -> hi <= BITS ->
  (exists b, value (BitArray.any BITS mData lo hi) = Some b) /\
  (value (BitArray.any BITS mData lo hi) = Some true <->
   exists i, lo <= i < hi /\ value (BitArray.test BITS mData i) = Some true).
Proof.
  intros HB [Hlen Hall] Hlo Hlt Hhi.
  pose proof (COUNT_covers BITS HB) as Hc.
  destruct (any_accepted_spec BITS mData lo hi HB Hall Hlo Hlt ltac:(lia) ltac:(lia)
              ltac:(lia)) as (t & b & Hrun & _ & _ & Hfound).
  rewrite Hrun. cbn [value snd].
  split; [exists b; reflexivity |].
  assert (Htest : forall i, lo <= i < hi ->
            value (BitArray.test BITS mData i) = Some (BitArray.buffer_bit mData i)).
  { intros i Hi. rewrite test_in_width by (assumption || lia). reflexivity. }
  split.
  - intros Hb. injection Hb as ->.
    destruct Hfound as [[_ (i & Hi & Hbit)] | [Hf _]]; [| discriminate Hf].
    exists i. split; [exact Hi |]. rewrite Htest by exact Hi. now rewrite Hbit.
  - intros (i & Hi & Hbit). rewrite Htest in Hbit by exact Hi.
    injection Hbit as Hbit.
    destruct Hfound as [[-> _] | [_ Hzero]]; [reflexivity |].
    rewrite Hzero in Hbit by exact Hi. discriminate Hbit.
Qed.

Lemma any_iff_exists_test_witness :
  value (BitArray.any 63 [0; 2 ^ 30] 1 63) = Some true <->
  exists i, 1 <= i < 63 /\ value (BitArray.test 63 [0; 2 ^ 30] i) = Some true.
Proof.
  refine (proj2 (any_iff_exists_test 63 [0; 2 ^ 30] 1 63 _ _ _ _ _)).
  - unfold BitArray.valid_width, BitArray.WIDTH, SIZE_MAX_P1. split; [lia | reflexivity].
  - split; [reflexivity |].
    repeat constructor; unfold is_u32; cbn; lia || discriminate.
  - lia.
  - lia.
  - lia.
Defined.

(** Computations that log no error. *)
Lemma no_log_ret {A} (a : A) : logged (trace (ret a)) = false.
Proof. reflexivity. Qed.

Lemma no_log_load (mData : list Z) (i : Z) : logged (trace (load mData i)) = false.
Proof. reflexivity. Qed.

Lemma no_log_bind {A B} (m : M A) (f : A -> M B) :
  logged (trace m) = false -> (forall a, logged (trace (f a)) = false) ->
  logged (trace (bind m f)) = false.
Proof.
  destruct m as [t [a |]]; unfold bind, trace; cbn [fst]; intros Hm Hf; [| exact Hm].
  specialize (Hf a). destruct (f a) as [t' r]. cbn [fst] in *.
  now rewrite logged_app, Hm, Hf.
Qed.

Ltac no_log :=
  repeat first
    [ apply no_log_ret
    | apply no_log_load
    | apply no_log_bind; [| intros ?]
    | match goal with
      | |- context [match ?x with (_, _) => _ end] => destruct x
      | |- context [if ?c then _ else _] => destruct c
      end ].

Lemma no_log_scan_whole (mData : list Z) (n : nat) (se ee : Z) :
  logged (trace (BitArray.scan_whole mData n se ee)) = false.
Proof.
  revert se. induction n as [| n IH]; intros se; cbn [BitArray.scan_whole].
  - apply no_log_ret.
  - destruct (se <? ee); [| apply no_log_ret].
    apply no_log_bind; [apply no_log_load |].
    intros w. destruct (bitset.any w); [apply no_log_ret | apply IH].
Qed.

(** C2, as the code has it: [any(startIndex, endIndex)] logs an error and
    returns false, without reading any word, when [startIndex >= endIndex],
    [startIndex > BITS] or [endIndex > BITS + 1]; every other call, so every
    call with [startIndex < endIndex <= BITS], logs no error. *)
Theorem any_range_check (BITS : Z) (mData : list Z) (startIndex endIndex : Z) :
  BitArray.valid_width BITS ->
  (endIndex <= startIndex \/ BITS < startIndex \/ BITS + 1 < endIndex ->
   BitArray.any BITS mData startIndex endIndex
   = ([LogE startIndex endIndex BITS], Some false)) /\
  (startIndex < endIndex -> startIndex <= BITS -> endIndex <= BITS + 1 ->
   logged (trace (BitArray.any BITS mData startIndex endIndex)) = false).
Proof.
  intros [HB0 HB1]. unfold BitArray.WIDTH, SIZE_MAX_P1 in HB1.
  change (2 ^ 64) with 18446744073709551616 in HB1.
  unfold BitArray.any.
  rewrite (size_t_small (BITS + 1)) by (unfold is_size_t, SIZE_MAX_P1; lia).
  rewrite Z.geb_leb, !Z.gtb_ltb.
  split.
  - intros Hbad.
    destruct (Z.leb_spec endIndex startIndex) as [_ | ?]; [reflexivity |].
    destruct (Z.ltb_spec BITS startIndex) as [_ | ?]; [reflexivity |].
    destruct (Z.ltb_spec (BITS + 1) endIndex) as [_ | ?]; [reflexivity | lia].
  - intros H1 H2 H3.
    destruct (Z.leb_spec endIndex startIndex) as [? | _]; [lia |].
    destruct (Z.ltb_spec BITS startIndex) as [? | _]; [lia |].
    destruct (Z.ltb_spec (BITS + 1) endIndex) as [? | _]; [lia |].
    cbn [orb]. cbv zeta.
    apply no_log_bind; [no_log |].
    intros [found se1]. destruct found; [apply no_log_ret |].
    apply no_log_bind; [apply no_log_scan_whole |].
    intros [found se2]. destruct found; [apply no_log_ret |].
    no_log.
Qed.

Lemma any_range_check_witness :
  BitArray.any 8 [255] 9 10 = ([LogE 9 10 8], Some false) /\
  logged (trace (BitArray.any 8 [255] 8 9)) = false.
Proof.
  assert (H : BitArray.valid_width 8).
  { unfold BitArray.valid_width, BitArray.WIDTH, SIZE_MAX_P1. split; [lia | reflexivity]. }
  split.
  - apply (proj1 (any_range_check 8 [255] 9 10 H)). lia.
  - apply (proj2 (any_range_check 8 [255] 8 9 H)); lia.
Defined.

(** C2 as stated fails: with [BITS = 4] the call [any(4, 5)] has
    [startIndex >= BITS] and [endIndex > BITS], yet it logs no error, reads
    word 0 and returns true. *)
Lemma any_accepts_index_BITS :
  4 >= 4 /\ 5 > 4 /\
  BitArray.any 4 [16] 4 5 = ([Load 0], Some true) /\
  BitArray.any 4 [16] 4 5 <> ([LogE 4 5 4], Some false).
Proof.
  split; [lia |]. split; [lia |].
  split; [vm_compute; reflexivity | vm_compute; discriminate].
Qed.

(** Where the accepted calls stay inside the array: whenever the end index
    is at most [BITS], or [BITS] is not a multiple of 32, every word index
    that [any] dereferences is below [COUNT]. *)
Lemma any_reads_within_array (BITS : Z) (mData : list Z) (startIndex endIndex : Z) :
  BitArray.valid_width BITS -> BitArray.wf BITS mData ->
  0 <= startIndex -> startIndex < endIndex ->
  startIndex <= BITS -> endIndex <= BITS + 1 ->
  endIndex <= BITS \/ BITS mod 32 <> 0 ->
  Forall (fun i => 0 <= i < BitArray.COUNT BITS)
         (loads (trace (BitArray.any BITS mData startIndex endIndex))) /\
  exists b, value (BitArray.any BITS mData startIndex endIndex) = Some b.
Proof.
  intros HB [Hlen Hall] Hs Hlt HsB HeB Hcase.
  pose proof (COUNT_covers BITS HB) as Hc.
  assert (Hfit : endIndex <= 32 * Z.of_nat (length mData)).
  { rewrite Hlen. destruct Hcase as [? | Hmod]; [lia |].
    rewrite COUNT_eq in * by exact HB. Z.div_mod_to_equations. lia. }
  destruct (any_accepted_spec BITS mData startIndex endIndex HB Hall Hs Hlt HsB HeB Hfit)
    as (t & b & -> & _ & Hld & _).
  rewrite Hlen in Hld. split; [exact Hld | exists b; reflexivity].
Qed.

(** The accepted boundary call of a width that is a multiple of 32 reads the
    word just past the end of the array, and nothing else. *)
Lemma any_boundary_out_of_bounds (BITS : Z) (mData : list Z) :
  BitArray.valid_width BITS -> BITS mod 32 = 0 ->
  Z.of_nat (length mData) = BitArray.COUNT BITS ->
  BitArray.any BITS mData BITS (BITS + 1) = ([Load (BitArray.COUNT BITS)], None).
Proof.
  intros HB Hmod Hlen. rewrite COUNT_eq in * by exact HB.
  destruct HB as [HB0 HB1]. unfold BitArray.WIDTH, SIZE_MAX_P1 in HB1.
  change (2 ^ 64) with 18446744073709551616 in HB1.
  set (c := (BITS + 31) / 32) in *.
  assert (Hc : 0 <= c /\ BITS = 32 * c) by (subst c; Z.div_mod_to_equations; lia).
  clearbody c. destruct Hc as [Hc0 ->].
  unfold BitArray.any, BitArray.WIDTH.
  rewrite (size_t_small (32 * c + 1)) by (unfold is_size_t, SIZE_MAX_P1; lia).
  rewrite Z.geb_leb, !Z.gtb_ltb.
  destruct (Z.leb_spec (32 * c + 1) (32 * c)) as [? | _]; [lia |].
  destruct (Z.ltb_spec (32 * c) (32 * c)) as [? | _]; [lia |].
  destruct (Z.ltb_spec (32 * c + 1) (32 * c + 1)) as [? | _]; [lia |].
  cbn [orb]. cbv zeta.
  replace (32 * c / 32) with c by (Z.div_mod_to_equations; lia).
  replace ((32 * c + 1) / 32) with c by (Z.div_mod_to_equations; lia).
  replace (32 * c mod 32) with 0 by (Z.div_mod_to_equations; lia).
  replace ((32 * c + 1) mod 32) with 1 by (Z.div_mod_to_equations; lia).
  change (0 <? 0) with false. change (0 <? 1) with true. cbv iota.
  rewrite bind_ret_l. cbv beta iota.
  rewrite Z.sub_diag. change (Z.to_nat 0) with 0%nat. cbn [BitArray.scan_whole].
  rewrite bind_ret_l. cbv beta iota.
  rewrite Z.leb_refl. cbn [andb].
  unfold load. destruct (Z.ltb_spec c 0) as [? | _]; [lia |].
  rewrite (lookup_ge_None_2 mData (Z.to_nat c)) by lia. reflexivity.
Qed.

(** C9, at the boundary call of a width that is a multiple of 32: a
    [BitArray<32>] has [COUNT = 1] word, the range check accepts
    [any(32, 33)], and the call dereferences word index 1, one past the end of
    the array, whatever the array holds. *)
Theorem any_boundary_reads_past_end (w : Z) :
  BitArray.COUNT 32 = 1 /\
  logged (trace (BitArray.any 32 [w] 32 33)) = false /\
  loads (trace (BitArray.any 32 [w] 32 33)) = [1] /\
  value (BitArray.any 32 [w] 32 33) = None.
Proof. repeat split. Qed.

(** ** BitArray::loadFromBuffer *)

(** After the iterations [0 .. i - 1] the first [i] words are loaded; the
    remaining iterations load the rest. *)
Lemma load_loop_spec (BITS : Z) (buffer : list Z) (n : nat) (i : Z) (mData : list Z) :
  BitArray.valid_width BITS ->
  0 <= i -> Z.of_nat n + i = BitArray.COUNT BITS ->
  Z.of_nat (length mData) = BitArray.COUNT BITS ->
  Z.of_nat (length buffer) = BitArray.COUNT BITS ->
  BitArray.load_loop BITS buffer n i mData
  = Some (take (Z.to_nat i) mData ++ (bitset.of_ull <$> drop (Z.to_nat i) buffer)).
Proof.
  intros HB. pose proof (COUNT_covers BITS HB) as Hc.
  destruct HB as [HB0 HB1]. unfold BitArray.WIDTH, SIZE_MAX_P1 in HB1.
  change (2 ^ 64) with 18446744073709551616 in HB1.
  revert i mData.
  induction n as [| n IH]; intros i mData Hi Hfuel Hlen Hbuf; cbn [BitArray.load_loop].
  - rewrite take_ge, drop_ge by lia. cbn. now rewrite app_nil_r.
  - destruct (Z.ltb_spec i (BitArray.COUNT BITS)) as [Hlt | ?]; [| lia].
    destruct (lookup_lt_is_Some_2 buffer (Z.to_nat i)) as [v Hv]; [lia |].
    rewrite Hv.
    destruct (Z.ltb_spec i (Z.of_nat (length mData))) as [_ | ?]; [| lia].
    rewrite size_t_small by (unfold is_size_t, SIZE_MAX_P1; lia).
    rewrite IH by (rewrite ?length_insert; lia).
    replace (Z.to_nat (i + 1)) with (S (Z.to_nat i)) by lia.
    rewrite (take_S_r _ _ (bitset.of_ull v))
      by (apply list_lookup_insert_eq; lia).
    rewrite take_insert_ge by lia.
    rewrite (drop_S buffer v (Z.to_nat i)) by exact Hv.
    rewrite fmap_cons, <- app_assoc. reflexivity.
Qed.

(** Loading replaces the whole array by the words of the buffer. *)
Lemma loadFromBuffer_eq (BITS : Z) (mData buffer : list Z) :
  BitArray.valid_width BITS ->
  Z.of_nat (length mData) = BitArray.COUNT BITS ->
  Z.of_nat (length buffer) = BitArray.COUNT BITS ->
  Forall is_u32 buffer ->
  BitArray.loadFromBuffer BITS mData buffer = Some buffer.
Proof.
  intros HB Hlen Hbuf Hall. pose proof (COUNT_covers BITS HB) as Hc.
  unfold BitArray.loadFromBuffer.
  rewrite load_loop_spec by (assumption || lia).
  cbn [Z.to_nat take drop app]. f_equal.
  rewrite <- (list_fmap_id buffer) at 2.
  apply Forall_fmap_ext_1. eapply Forall_impl; [exact Hall |].
  intros v Hv. apply Z.mod_small. exact Hv.
Qed.

(** C8: loading a buffer of [COUNT] 32-bit words succeeds and leaves an array
    on which [test(i)], for every [i < BITS], is bit [i mod 32] of word
    [i / 32] of the buffer; [test] is false from [BITS] on; and two buffers
    that agree on their first [BITS] bits give arrays on which every [test]
    agrees, whatever the buffers hold at or beyond bit [BITS]. *)
Theorem loadFromBuffer_test_roundtrip (BITS : Z) (mData buffer : list Z) :
  BitArray.valid_width BITS -> BitArray.wf BITS mData ->
  Z.of_nat (length buffer) = BitArray.COUNT BITS -> Forall is_u32 buffer ->
  exists mData',
    BitArray.loadFromBuffer BITS mData buffer = Some mData' /\
    BitArray.wf BITS mData' /\
    (forall i, 0 <= i < BITS ->
       value (BitArray.test BITS mData' i)
       = Some (match buffer !! Z.to_nat (i / 32) with
               | Some v => Z.testbit v (i mod 32)
               | None => false
               end)) /\
    (forall i, BITS <= i -> value (BitArray.test BITS mData' i) = Some false) /\
    (forall buffer2,
       Z.of_nat (length buffer2) = BitArray.COUNT BITS -> Forall is_u32 buffer2 ->
       (forall i, 0 <= i < BITS ->
          BitArray.buffer_bit buffer i = BitArray.buffer_bit buffer2 i) ->
       exists mData2',
         BitArray.loadFromBuffer BITS mData buffer2 = Some mData2' /\
         forall i, 0 <= i ->
           BitArray.test BITS mData' i = BitArray.test BITS mData2' i).
Proof.
  intros HB [Hlen Hall] Hbuf Hwords.
  exists buffer.
  split; [apply loadFromBuffer_eq; assumption |].
  split; [split; assumption |].
  split.
  { intros i Hi. rewrite test_in_width by assumption. reflexivity. }
  split.
  { intros i Hi. unfold BitArray.test.
    destruct (Z.ltb_spec i BITS) as [? | _]; [lia | reflexivity]. }
  intros buffer2 Hbuf2 Hwords2 Hagree.
  exists buffer2.
  split; [apply loadFromBuffer_eq; assumption |].
  intros i Hi. destruct (Z.lt_ge_cases i BITS) as [Hlt | Hge].
  - rewrite !test_in_width by (assumption || lia). now rewrite Hagree by lia.
  - unfold BitArray.test.
    destruct (Z.ltb_spec i BITS) as [? | _]; [lia | reflexivity].
Qed.

Lemma loadFromBuffer_test_roundtrip_witness :
  exists mData',
    BitArray.loadFromBuffer 40 [0; 0] [5; 2 ^ 31] = Some mData' /\
    value (BitArray.test 40 mData' 2) = Some true /\
    value (BitArray.test 40 mData' 63) = Some false.
Proof.
  destruct (loadFromBuffer_test_roundtrip 40 [0; 0] [5; 2 ^ 31])
    as (mData' & Hload & _ & Hbits & Hout & _).
  - unfold BitArray.valid_width, BitArray.WIDTH, SIZE_MAX_P1. split; [lia | reflexivity].
  - split; [reflexivity |].
    repeat constructor; unfold is_u32; cbn; lia || discriminate.
  - reflexivity.
  - repeat constructor; unfold is_u32; cbn; lia || discriminate.
  - exists mData'. split; [exact Hload |]. split.
    + rewrite (Hbits 2) by lia. reflexivity.
    + apply Hout. lia.
Defined.

(** * Further properties of the bit array *)

(** ** Sizes *)

(** [bytes()] is the least number of bytes that hold [BITS] bits, and it never
    exceeds the size in bytes of a [Buffer] of [COUNT] 32-bit words, which in
    turn is the least number of words that hold [BITS] bits. *)
Theorem bytes_fits_buffer (BITS : Z) :
  BitArray.valid_width BITS ->
  (BITS <= 8 * BitArray.bytes BITS < BITS + 8) /\
  (BITS <= 32 * BitArray.COUNT BITS < BITS + 32) /\
  BitArray.bytes BITS <= 4 * BitArray.COUNT BITS.
Proof.
  intros HB. pose proof (COUNT_covers BITS HB) as Hc.
  rewrite COUNT_eq in * by exact HB.
  destruct HB as [HB0 HB1]. unfold BitArray.WIDTH, SIZE_MAX_P1 in HB1.
  change (2 ^ 64) with 18446744073709551616 in HB1.
  unfold BitArray.bytes.
  rewrite (size_t_small (BITS + 8)) by (unfold is_size_t, SIZE_MAX_P1; lia).
  rewrite size_t_small by (unfold is_size_t, SIZE_MAX_P1; lia).
  Z.div_mod_to_equations. lia.
Qed.

Lemma bytes_fits_buffer_witness :
  BitArray.bytes 767 <= 4 * BitArray.COUNT 767.
Proof.
  refine (proj2 (proj2 (bytes_fits_buffer 767 _))).
  unfold BitArray.valid_width, BitArray.WIDTH, SIZE_MAX_P1. split; [lia | reflexivity].
Defined.

(** ** The mask of the first word *)

(** The mask [((1 << nBits) - 1) << si], computed in [int] and converted to
    [Element], has exactly the bits [si .. si + nBits - 1] set whenever these
    lie inside the word; this includes the 31-bit masks, for which the
    subtraction leaves the range of [int]. *)
Theorem first_mask_bits (nBits si j : Z) :
  0 <= nBits -> 0 <= si -> nBits + si <= 32 -> 0 <= j ->
  Z.testbit (to_u32 (int_shl (int_sub (int_shl 1 nBits) 1) si)) j
  = (si <=? j) && (j <? si + nBits).
Proof.
  intros Hn Hs Hns Hj. rewrite first_mask by assumption.
  replace nBits with ((si + nBits) - si) at 1 by lia.
  apply range_mask_spec; lia.
Qed.

Lemma first_mask_bits_witness :
  Z.testbit (to_u32 (int_shl (int_sub (int_shl 1 31) 1) 1)) 31 = true.
Proof. apply (first_mask_bits 31 1 31); lia. Defined.

(** ** BitArray::any against the raw bits of the array *)

Lemma found_spec_unique (mData : list Z) (lo hi : Z) (b b' : bool) :
  found_spec mData lo hi b -> found_spec mData lo hi b' -> b = b'.
Proof.
  intros [[-> (i & Hi & Hb)] | [-> Hz]] [[-> (i' & Hi' & Hb')] | [-> Hz']];
    try reflexivity.
  - rewrite Hz' in Hb by exact Hi. discriminate Hb.
  - rewrite Hz in Hb' by exact Hi'. discriminate Hb'.
Qed.

Lemma found_spec_join (mData : list Z) (lo mid hi : Z) (b1 b2 : bool) :
  lo <= mid <= hi ->
  found_spec mData lo mid b1 -> found_spec mData mid hi b2 ->
  found_spec mData lo hi (b1 || b2).
Proof.
  intros Hmid [[-> (i & Hi & Hb)] | [-> Hz1]] H2; cbn [orb].
  - left. split; [reflexivity |]. exists i. split; [lia | exact Hb].
  - destruct H2 as [[-> (i & Hi & Hb)] | [-> Hz2]]; [left | right];
      (split; [reflexivity |]).
    + exists i. split; [lia | exact Hb].
    + intros i Hi. destruct (Z.lt_ge_cases i mid); [apply Hz1 | apply Hz2]; lia.
Qed.

Lemma found_spec_ext (mData mData' : list Z) (lo hi : Z) (b : bool) :
  (forall i, lo <= i < hi ->
     BitArray.buffer_bit mData i = BitArray.buffer_bit mData' i) ->
  found_spec mData lo hi b -> found_spec mData' lo hi b.
Proof.
  intros Hagree [[-> (i & Hi & Hb)] | [-> Hz]]; [left | right];
    (split; [reflexivity |]).
  - exists i. split; [exact Hi |]. now rewrite <- Hagree.
  - intros i Hi. rewrite <- Hagree by exact Hi. now apply Hz.
Qed.

Lemma any_in_array (BITS : Z) (mData : list Z) (s e : Z) :
  BitArray.valid_width BITS -> BitArray.wf BITS mData -> in_array BITS s e ->
  exists b, value (BitArray.any BITS mData s e) = Some b /\ found_spec mData s e b.
Proof.
  intros HB [Hlen Hall] (Hs & Hlt & HsB & HeB & Hcase).
  pose proof (COUNT_covers BITS HB) as Hc.
  assert (Hfit : e <= 32 * Z.of_nat (length mData)).
  { rewrite Hlen. destruct Hcase as [? | Hmod]; [lia |].
    rewrite COUNT_eq in * by exact HB. Z.div_mod_to_equations. lia. }
  destruct (any_accepted_spec BITS mData s e HB Hall Hs Hlt HsB HeB Hfit)
    as (t & b & -> & _ & _ & Hfound).
  exists b. split; [reflexivity | exact Hfound].
Qed.

(** On every accepted range that the array has words for, so also on ranges
    ending at [BITS + 1] when [BITS] is not a multiple of 32, [any] returns
    true exactly when some bit of the words with index in the range is set. *)
Theorem any_raw_bits (BITS : Z) (mData : list Z) (startIndex endIndex : Z) :
  BitArray.valid_width BITS -> BitArray.wf BITS mData ->
  in_array BITS startIndex endIndex ->
  (exists b, value (BitArray.any BITS mData startIndex endIndex) = Some b) /\
  (value (BitArray.any BITS mData startIndex endIndex) = Some true <->
   exists i, startIndex <= i < endIndex /\ BitArray.buffer_bit mData i = true).
Proof.
  intros HB Hwf Hin.
  destruct (any_in_array BITS mData startIndex endIndex HB Hwf Hin) as (b & Hv & Hf).
  rewrite Hv. split; [exists b; reflexivity |]. split.
  - intros [= ->]. destruct Hf as [[_ Hex] | [Hb _]]; [exact Hex | discriminate Hb].
  - intros (i & Hi & Hbit). destruct Hf as [[-> _] | [_ Hz]]; [reflexivity |].
    rewrite Hz in Hbit by exact Hi. discriminate Hbit.
Qed.

Lemma any_raw_bits_witness :
  value (BitArray.any 63 [0; 2 ^ 31] 40 64) = Some true <->
  exists i, 40 <= i < 64 /\ BitArray.buffer_bit [0; 2 ^ 31] i = true.
Proof.
  refine (proj2 (any_raw_bits 63 [0; 2 ^ 31] 40 64 _ _ _)).
  - unfold BitArray.valid_width, BitArray.WIDTH, SIZE_MAX_P1. split; [lia | reflexivity].
  - split; [reflexivity |].
    repeat constructor; unfold is_u32; cbn; lia || discriminate.
  - unfold in_array. repeat split; try lia. right. discriminate.
Defined.

(** [any] over a range is the disjunction of [any] over the two parts of any
    split of it. *)
Theorem any_split (BITS : Z) (mData : list Z) (lo mid hi : Z) :
  BitArray.valid_width BITS -> BitArray.wf BITS mData ->
  in_array BITS lo hi -> lo < mid -> mid < hi ->
  exists b1 b2,
    value (BitArray.any BITS mData lo mid) = Some b1 /\
    value (BitArray.any BITS mData mid hi) = Some b2 /\
    value (BitArray.any BITS mData lo hi) = Some (b1 || b2).
Proof.
  intros HB Hwf Hin H1 H2.
  assert (Hin1 : in_array BITS lo mid) by (unfold in_array in *; lia).
  assert (Hin2 : in_array BITS mid hi) by (unfold in_array in *; lia).
  destruct (any_in_array BITS mData lo mid HB Hwf Hin1) as (b1 & Hv1 & Hf1).
  destruct (any_in_array BITS mData mid hi HB Hwf Hin2) as (b2 & Hv2 & Hf2).
  destruct (any_in_array BITS mData lo hi HB Hwf Hin) as (b & Hv & Hf).
  exists b1, b2. split; [exact Hv1 |]. split; [exact Hv2 |].
  rewrite Hv. f_equal.
  apply (found_spec_unique mData lo hi); [exact Hf |].
  apply found_spec_join with (mid := mid); [lia | assumption | assumption].
Qed.

Lemma any_split_witness :
  exists b1 b2,
    value (BitArray.any 63 [0; 2 ^ 31] 1 33) = Some b1 /\
    value (BitArray.any 63 [0; 2 ^ 31] 33 64) = Some b2 /\
    value (BitArray.any 63 [0; 2 ^ 31] 1 64) = Some (b1 || b2).
Proof.
  apply (any_split 63 [0; 2 ^ 31] 1 33 64).
  - unfold BitArray.valid_width, BitArray.WIDTH, SIZE_MAX_P1. split; [lia | reflexivity].
  - split; [reflexivity |].
    repeat constructor; unfold is_u32; cbn; lia || discriminate.
  - unfold in_array. repeat split; try lia. right. discriminate.
  - lia.
  - lia.
Defined.

(** The result of [any] depends only on the bits inside the range: two arrays
    that agree on the bits [startIndex .. endIndex - 1] give the same result. *)
Theorem any_local (BITS : Z) (mData mData' : list Z) (startIndex endIndex : Z) :
  BitArray.valid_width BITS -> BitArray.wf BITS mData -> BitArray.wf BITS mData' ->
  in_array BITS startIndex endIndex ->
  (forall i, startIndex <= i < endIndex ->
     BitArray.buffer_bit mData i = BitArray.buffer_bit mData' i) ->
  value (BitArray.any BITS mData startIndex endIndex)
  = value (BitArray.any BITS mData' startIndex endIndex).
Proof.
  intros HB Hwf Hwf' Hin Hagree.
  destruct (any_in_array BITS mData startIndex endIndex HB Hwf Hin) as (b & Hv & Hf).
  destruct (any_in_array BITS mData' startIndex endIndex HB Hwf' Hin) as (b' & Hv' & Hf').
  rewrite Hv, Hv'. f_equal.
  apply (found_spec_unique mData' startIndex endIndex); [| exact Hf'].
  apply found_spec_ext with (mData := mData); assumption.
Qed.

Lemma any_local_witness :
  value (BitArray.any 63 [1; 6] 1 3) = value (BitArray.any 63 [0; 4] 1 3).
Proof.
  apply (any_local 63 [1; 6] [0; 4] 1 3).
  - unfold BitArray.valid_width, BitArray.WIDTH, SIZE_MAX_P1. split; [lia | reflexivity].
  - split; [reflexivity |].
    repeat constructor; unfold is_u32; cbn; lia || discriminate.
  - split; [reflexivity |].
    repeat constructor; unfold is_u32; cbn; lia || discriminate.
  - unfold in_array. lia.
  - intros i Hi.
    assert (Hcases : i = 1 \/ i = 2) by lia.
    destruct Hcases as [-> | ->]; reflexivity.
Defined.

Lemma found_spec_single (mData : list Z) (i : Z) (b : bool) :
  found_spec mData i (i + 1) b -> b = BitArray.buffer_bit mData i.
Proof.
  intros [[-> (j & Hj & Hb)] | [-> Hz]].
  - replace i with j by lia. now rewrite Hb.
  - rewrite Hz by lia. reflexivity.
Qed.

(** A range of one bit below [BITS] is the same query as [test]. *)
Theorem any_single_bit (BITS : Z) (mData : list Z) (bit : Z) :
  BitArray.valid_width BITS -> BitArray.wf BITS mData -> 0 <= bit < BITS ->
  value (BitArray.any BITS mData bit (bit + 1)) = value (BitArray.test BITS mData bit).
Proof.
  intros HB Hwf Hbit.
  destruct (any_in_array BITS mData bit (bit + 1) HB Hwf) as (b & Hv & Hf);
    [unfold in_array; lia |].
  rewrite Hv, (found_spec_single _ _ _ Hf).
  destruct Hwf as [Hlen _]. rewrite test_in_width by assumption. reflexivity.
Qed.

Lemma any_single_bit_witness :
  value (BitArray.any 63 [0; 2 ^ 30] 62 63) = value (BitArray.test 63 [0; 2 ^ 30] 62).
Proof.
  apply (any_single_bit 63 [0; 2 ^ 30] 62).
  - unfold BitArray.valid_width, BitArray.WIDTH, SIZE_MAX_P1. split; [lia | reflexivity].
  - split; [reflexivity |].
    repeat constructor; unfold is_u32; cbn; lia || discriminate.
  - lia.
Defined.

(** At index [BITS] the two queries differ: when [BITS] is not a multiple of
    32, [any(BITS, BITS + 1)] is accepted and returns bit [BITS mod 32] of the
    last word, while [test(BITS)] is false whatever that bit is. *)
Theorem any_sees_bit_BITS (BITS : Z) (mData : list Z) :
  BitArray.valid_width BITS -> BitArray.wf BITS mData -> BITS mod 32 <> 0 ->
  value (BitArray.any BITS mData BITS (BITS + 1))
  = Some (BitArray.buffer_bit mData BITS) /\
  BitArray.test BITS mData BITS = ret false.
Proof.
  intros HB Hwf Hmod.
  destruct (any_in_array BITS mData BITS (BITS + 1) HB Hwf) as (b & Hv & Hf).
  { destruct HB as [HB0 _]. unfold in_array. lia. }
  rewrite Hv, (found_spec_single _ _ _ Hf). split; [reflexivity |].
  unfold BitArray.test. destruct (Z.ltb_spec BITS BITS) as [? | _]; [lia | reflexivity].
Qed.

Lemma any_sees_bit_BITS_witness :
  value (BitArray.any 63 [0; 2 ^ 31] 63 64) = Some true /\
  BitArray.test 63 [0; 2 ^ 31] 63 = ret false.
Proof.
  apply (any_sees_bit_BITS 63 [0; 2 ^ 31]).
  - unfold BitArray.valid_width, BitArray.WIDTH, SIZE_MAX_P1. split; [lia | reflexivity].
  - split; [reflexivity |].
    repeat constructor; unfold is_u32; cbn; lia || discriminate.
  - discriminate.
Defined.

(** ** A newly constructed array *)

Lemma default_init_bit (BITS i : Z) :
  BitArray.buffer_bit (BitArray.default_init BITS) i = false.
Proof.
  unfold BitArray.buffer_bit, BitArray.default_init.
  destruct (replicate _ _ !! _) as [v |] eqn:Hv; [| reflexivity].
  apply lookup_replicate in Hv. destruct Hv as [-> _]. apply Z.testbit_0_l.
Qed.

(** A newly constructed array is well formed and has no bit set: [test] is
    false at every index, and [any] is false on every accepted range that the
    array has words for. *)
Theorem default_init_empty (BITS : Z) :
  BitArray.valid_width BITS ->
  BitArray.wf BITS (BitArray.default_init BITS) /\
  (forall bit, 0 <= bit ->
     value (BitArray.test BITS (BitArray.default_init BITS) bit) = Some false) /\
  (forall startIndex endIndex, in_array BITS startIndex endIndex ->
     value (BitArray.any BITS (BitArray.default_init BITS) startIndex endIndex)
     = Some false).
Proof.
  intros HB. pose proof (COUNT_covers BITS HB) as Hc.
  assert (Hwf : BitArray.wf BITS (BitArray.default_init BITS)).
  { split.
    - unfold BitArray.default_init. rewrite length_replicate.
      destruct HB as [HB0 _]. lia.
    - apply Forall_replicate. unfold is_u32. split; [lia | reflexivity]. }
  split; [exact Hwf |]. split.
  - intros bit Hbit. destruct (Z.lt_ge_cases bit BITS) as [Hlt | Hge].
    + destruct Hwf as [Hlen _].
      rewrite test_in_width by (assumption || lia).
      cbn [value snd]. now rewrite default_init_bit.
    + unfold BitArray.test.
      destruct (Z.ltb_spec bit BITS) as [? | _]; [lia | reflexivity].
  - intros s e Hin.
    destruct (any_in_array BITS _ s e HB Hwf Hin) as (b & Hv & Hf).
    rewrite Hv. f_equal.
    destruct Hf as [[_ (i & _ & Hb)] | [-> _]]; [| reflexivity].
    rewrite default_init_bit in Hb. discriminate Hb.
Qed.

Lemma default_init_empty_witness :
  value (BitArray.any 63 (BitArray.default_init 63) 5 64) = Some false.
Proof.
  refine (proj2 (proj2 (default_init_empty 63 _)) 5 64 _).
  - unfold BitArray.valid_width, BitArray.WIDTH, SIZE_MAX_P1. split; [lia | reflexivity].
  - unfold in_array. repeat split; try lia. right. discriminate.
Defined.

(** ** BitArray::loadFromBuffer, further *)

Lemma of_ull_u32 (v : Z) : is_u32 (bitset.of_ull v).
Proof. unfold is_u32, bitset.of_ull. apply Z.mod_pos_bound. reflexivity. Qed.

(** Loading writes every word: it succeeds on any array of [COUNT] words, the
    result is a well-formed array that depends on the buffer only, and a later
    load erases an earlier one. *)
Theorem loadFromBuffer_overwrites (BITS : Z) (mData buffer : list Z) :
  BitArray.valid_width BITS ->
  Z.of_nat (length mData) = BitArray.COUNT BITS ->
  Z.of_nat (length buffer) = BitArray.COUNT BITS ->
  exists r,
    BitArray.loadFromBuffer BITS mData buffer = Some r /\
    BitArray.wf BITS r /\
    (forall mData2, Z.of_nat (length mData2) = BitArray.COUNT BITS ->
       BitArray.loadFromBuffer BITS mData2 buffer = Some r) /\
    (forall buffer2, Z.of_nat (length buffer2) = BitArray.COUNT BITS ->
       BitArray.loadFromBuffer BITS r buffer2
       = BitArray.loadFromBuffer BITS mData buffer2).
Proof.
  intros HB Hlen Hbuf. pose proof (COUNT_covers BITS HB) as Hc.
  assert (Hload : forall m b, Z.of_nat (length m) = BitArray.COUNT BITS ->
            Z.of_nat (length b) = BitArray.COUNT BITS ->
            BitArray.loadFromBuffer BITS m b = Some (bitset.of_ull <$> b)).
  { intros m b Hm Hb. unfold BitArray.loadFromBuffer.
    rewrite load_loop_spec by (assumption || lia). reflexivity. }
  exists (bitset.of_ull <$> buffer).
  split; [apply Hload; assumption |].
  split.
  { split; [rewrite length_fmap; exact Hbuf |].
    apply Forall_fmap, Forall_true. intros v. apply of_ull_u32. }
  split; [intros mData2 H2; apply Hload; assumption |].
  intros buffer2 H2. rewrite !Hload by (rewrite ?length_fmap; assumption). reflexivity.
Qed.

Lemma loadFromBuffer_overwrites_witness :
  exists r,
    BitArray.loadFromBuffer 40 [7; 7] [5; 2 ^ 31] = Some r /\ BitArray.wf 40 r.
Proof.
  destruct (loadFromBuffer_overwrites 40 [7; 7] [5; 2 ^ 31]) as (r & Hr & Hwf & _).
  - unfold BitArray.valid_width, BitArray.WIDTH, SIZE_MAX_P1. split; [lia | reflexivity].
  - reflexivity.
  - reflexivity.
  - exists r. split; assumption.
Defined.

(** Probing a loaded capability mask: after [loadFromBuffer], [any] over an
    accepted range that the array has words for is true exactly when the
    buffer has a bit set at an index of the range. *)
Theorem any_after_loadFromBuffer (BITS : Z) (mData buffer : list Z)
    (startIndex endIndex : Z) :
  BitArray.valid_width BITS -> BitArray.wf BITS mData ->
  Z.of_nat (length buffer) = BitArray.COUNT BITS -> Forall is_u32 buffer ->
  in_array BITS startIndex endIndex ->
  exists mData',
    BitArray.loadFromBuffer BITS mData buffer = Some mData' /\
    (value (BitArray.any BITS mData' startIndex endIndex) = Some true <->
     exists i, startIndex <= i < endIndex /\
       match buffer !! Z.to_nat (i / 32) with
       | Some v => Z.testbit v (i mod 32)
       | None => false
       end = true).
Proof.
  intros HB [Hlen _] Hbuf Hwords Hin.
  exists buffer. split; [apply loadFromBuffer_eq; assumption |].
  destruct (any_in_array BITS buffer startIndex endIndex HB (conj Hbuf Hwords) Hin)
    as (b & Hv & Hf).
  rewrite Hv. split.
  - intros [= ->]. destruct Hf as [[_ Hex] | [Hb _]]; [exact Hex | discriminate Hb].
  - intros (i & Hi & Hbit). destruct Hf as [[-> _] | [_ Hz]]; [reflexivity |].
    specialize (Hz i Hi). unfold BitArray.buffer_bit, BitArray.WIDTH in Hz.
    rewrite Hz in Hbit. discriminate Hbit.
Qed.

Lemma any_after_loadFromBuffer_witness :
  exists mData',
    BitArray.loadFromBuffer 40 [0; 0] [0; 64] = Some mData' /\
    (value (BitArray.any 40 mData' 33 40) = Some true <->
     exists i, 33 <= i < 40 /\
       match [0; 64] !! Z.to_nat (i / 32) with
       | Some v => Z.testbit v (i mod 32)
       | None => false
       end = true).
Proof.
  apply (any_after_loadFromBuffer 40 [0; 0] [0; 64] 33 40).
  - unfold BitArray.valid_width, BitArray.WIDTH, SIZE_MAX_P1. split; [lia | reflexivity].
  - split; [reflexivity |].
    repeat constructor; unfold is_u32; cbn; lia || discriminate.
  - reflexivity.
  - repeat constructor; unfold is_u32; cbn; lia || discriminate.
  - unfold in_array. lia.
Defined.

(** ** The words BitArray::any reads *)








Lemma any_reads_within_array_witness :
  Forall (fun i => 0 <= i < BitArray.COUNT 63)
         (loads (trace (BitArray.any 63 [0; 2 ^ 31] 1 64))).
Proof.
  refine (proj1 (any_reads_within_array 63 [0; 2 ^ 31] 1 64 _ _ _ _ _ _ _)).
  - unfold BitArray.valid_width, BitArray.WIDTH, SIZE_MAX_P1. split; [lia | reflexivity].
  - split; [reflexivity |].
    repeat constructor; unfold is_u32; cbn; lia || discriminate.
  - lia.
  - lia.
  - lia.
  - lia.
  - right. discriminate.
Defined.

Lemma any_boundary_out_of_bounds_witness :
  BitArray.any 64 [0; 0] 64 65 = ([Load (BitArray.COUNT 64)], None).
Proof.
  apply (any_boundary_out_of_bounds 64 [0; 0]).
  - unfold BitArray.valid_width, BitArray.WIDTH, SIZE_MAX_P1. split; [lia | reflexivity].
  - reflexivity.
  - reflexivity.
Defined.

(** Widening a range can only turn the result of [any] from false to true. *)
Theorem any_monotone (BITS : Z) (mData : list Z) (lo hi lo' hi' : Z) :
  BitArray.valid_width BITS -> BitArray.wf BITS mData ->
  in_array BITS lo hi -> in_array BITS lo' hi' -> lo' <= lo -> hi <= hi' ->
  value (BitArray.any BITS mData lo hi) = Some true ->
  value (BitArray.any BITS mData lo' hi') = Some true.
Proof.
  intros HB Hwf Hin Hin' Hlo Hhi Htrue.
  destruct (any_in_array BITS mData lo hi HB Hwf Hin) as (b & Hv & Hf).
  destruct (any_in_array BITS mData lo' hi' HB Hwf Hin') as (b' & Hv' & Hf').
  rewrite Hv in Htrue. injection Htrue as ->. rewrite Hv'. f_equal.
  destruct Hf as [[_ (i & Hi & Hb)] | [Hb _]]; [| discriminate Hb].
  destruct Hf' as [[-> _] | [_ Hz]]; [reflexivity |].
  rewrite Hz in Hb by lia. discriminate Hb.
Qed.

Lemma any_monotone_witness :
  value (BitArray.any 63 [0; 2 ^ 30] 1 63) = Some true.
Proof.
  apply (any_monotone 63 [0; 2 ^ 30] 62 63 1 63).
  - unfold BitArray.valid_width, BitArray.WIDTH, SIZE_MAX_P1. split; [lia | reflexivity].
  - split; [reflexivity |].
    repeat constructor; unfold is_u32; cbn; lia || discriminate.
  - unfold in_array. lia.
  - unfold in_array. lia.
  - lia.
  - lia.
  - reflexivity.
Defined.

(** ** The words BitArray::test reads *)

(** Whatever the array holds, [test] dereferences at most one word, and its
    index is below [COUNT]: the guard [bit < BITS] keeps every access inside
    the array. *)
Theorem test_reads_within_array (BITS : Z) (mData : list Z) (bit : Z) :
  BitArray.valid_width BITS -> 0 <= bit ->
  Forall (fun i => 0 <= i < BitArray.COUNT BITS)
         (loads (trace (BitArray.test BITS mData bit))) /\
  (length (loads (trace (BitArray.test BITS mData bit))) <= 1)%nat.
Proof.
  intros HB Hbit. pose proof (COUNT_covers BITS HB) as Hc.
  unfold BitArray.test, BitArray.WIDTH.
  destruct (Z.ltb_spec bit BITS) as [Hlt | _]; [| split; [constructor | cbn; lia]].
  unfold load, bind, trace.
  destruct (if bit / 32 <? 0 then None else mData !! Z.to_nat (bit / 32)) as [w |];
    cbn; (split; [| lia]); (constructor; [| constructor]);
    Z.div_mod_to_equations; lia.
Qed.

Lemma test_reads_within_array_witness :
  Forall (fun i => 0 <= i < BitArray.COUNT 63)
         (loads (trace (BitArray.test 63 [0; 2 ^ 31] 40))).
Proof.
  refine (proj1 (test_reads_within_array 63 [0; 2 ^ 31] 40 _ _)).
  - unfold BitArray.valid_width, BitArray.WIDTH, SIZE_MAX_P1. split; [lia | reflexivity].
  - lia.
Defined.
